(** * SideNav: a searchable, collapsible navigation tree

    A shallow embedding of [src/SideNav.ts]: the two custom elements
    [SideNavElement] (design-docs-sidenav) and [SideNavSearchElement]
    (design-docs-sidenav-search), their render methods and their event
    handlers.

    - JavaScript strings are [string]; [String.prototype.includes] is a
      comparison of code units, so the unit type does not matter.
    - [undefined] and [null] are [None].
    - Methods of the component run in a small state-and-exception monad
      over a [World]: the fields of the component instance, the live
      elements of its rendered tree and the console.
    - What lit renders is a tree of [Node]s; the whitespace between the
      tags of a template is left out. *)

From Stdlib Require Import ZArith.
From stdpp Require Import base strings list gmap.

Set Warnings "-register-all".
Local Open Scope string_scope.

(** ** Strings *)

Module Str.

(** [s.startsWith(p)] *)
Fixpoint startsWith (s p : string) {struct p} : bool :=
  match p, s with
  | EmptyString, _ => true
  | String _ _, EmptyString => false
  | String c p', String d s' => if Ascii.eqb c d then startsWith s' p' else false
  end.

(** [s.includes(sub)]: some position of [s] starts an occurrence of [sub]. *)
Fixpoint includes (s sub : string) : bool :=
  if startsWith s sub then true
  else match s with
       | EmptyString => false
       | String _ s' => includes s' sub
       end.

(** A JavaScript string is truthy when it is not empty. *)
Definition truthy (s : string) : bool :=
  match s with
  | EmptyString => false
  | String _ _ => true
  end.

(** [sub] occurs in [s]: the meaning of "contains as a substring". *)
Definition Substring (sub s : string) : Prop :=
  ∃ pre post : string, s = pre +:+ sub +:+ post.

End Str.

(** ** Data model *)

(** Modelled from the spec: the declarations of [./Routes] (Route, Routes,
    RouteTreeItemType, RouteTreeItem, RouteTree), which [SideNav.ts] imports.
    The two fields the code reads through an optional chain ([route.label?.]
    and [treeItem.children?.]) may be [undefined]. *)
Record Route := mkRoute {
  path : string;
  label : option string;
}.

Definition Routes := list Route.

Inductive RouteTreeItem :=
| GROUP (group_label : string) (children : option (list RouteTreeItem))
| ITEM (index : Z).

Definition RouteTree := list RouteTreeItem.

(** [routes[i]]: [undefined] outside the bounds of the array. *)
Definition array_get {A : Type} (l : list A) (i : Z) : option A :=
  if (i <? 0)%Z then None else l !! Z.to_nat i.

(** ** Rendered output *)

(** The methods a template binds as event listeners. *)
Inductive Listener :=
| OnSearch
| OnTreeGroupClick
| OnTreeGroupKeyDown
| OnSearchChange.

Inductive HTMLElement :=
| mkElement (tagName : string)
            (attributes : gmap string string)
            (listeners : list (string * Listener))
            (childNodes : list Node)
with Node :=
| NElem (e : HTMLElement)
| NText (s : string)
| NNothing.

Definition tagName (e : HTMLElement) : string :=
  let 'mkElement t _ _ _ := e in t.
Definition attributes (e : HTMLElement) : gmap string string :=
  let 'mkElement _ a _ _ := e in a.
Definition listeners (e : HTMLElement) : list (string * Listener) :=
  let 'mkElement _ _ l _ := e in l.
Definition childNodes (e : HTMLElement) : list Node :=
  let 'mkElement _ _ _ c := e in c.

(** [el.getAttribute(name)] and [el.setAttribute(name, value)] *)
Definition getAttribute (el : HTMLElement) (name : string) : option string :=
  attributes el !! name.

Definition setAttribute (el : HTMLElement) (name value : string) : HTMLElement :=
  mkElement (tagName el) (<[name := value]> (attributes el)) (listeners el) (childNodes el).

(** [el.ariaExpanded] reflects the content attribute [aria-expanded]. *)
Definition ariaExpanded (el : HTMLElement) : option string :=
  getAttribute el "aria-expanded".

Definition set_ariaExpanded (el : HTMLElement) (value : string) : HTMLElement :=
  setAttribute el "aria-expanded" value.

(** What lit puts in child position for a value: nothing for
    [null] and [undefined]. *)
Definition child_of_template (t : option HTMLElement) : Node :=
  match t with
  | Some e => NElem e
  | None => NNothing
  end.

Definition child_of_string (s : option string) : Node :=
  match s with
  | Some v => NText v
  | None => NNothing
  end.

(** [classMap(classes)]: the names whose flag is set. *)
Fixpoint classMap (classes : list (string * bool)) : string :=
  match classes with
  | [] => ""
  | (name, true) :: rest =>
      match classMap rest with
      | "" => name
      | others => name +:+ " " +:+ others
      end
  | (_, false) :: rest => classMap rest
  end.

(** ** Events *)

(** [CustomEvent<string>], with the flags of its [EventInit]. *)
Record CustomEvent := mkCustomEvent {
  type : string;
  detail : string;
  bubbles : bool;
  composed : bool;
}.

Definition SideNavSearchSearchEvent := CustomEvent.

(** A live element is known by its identity. *)
Definition ElementRef := nat.

(** An [InputEvent] of the search field: [(event.target as HTMLInputElement).value]. *)
Record InputEvent := mkInputEvent {
  target_value : string;
}.

(** A [KeyboardEvent] on a group label: [event.key] and
    [event.target.parentElement]. *)
Record KeyboardEvent := mkKeyboardEvent {
  key : string;
  key_target_parentElement : option ElementRef;
}.

(** A [PointerEvent] on a group label: [event.target.parentElement]. *)
Record PointerEvent := mkPointerEvent {
  pointer_target_parentElement : option ElementRef;
}.

(** ** The component and its world *)

(** The reactive fields of [SideNavElement]. *)
Record SideNavElement := mkSideNav {
  routes : Routes;
  routeTree : RouteTree;
  searchable : bool;
  searchString : string;
}.

(** A freshly constructed element: the field initialisers of the class. *)
Definition new_SideNavElement : SideNavElement :=
  {| routes := []; routeTree := []; searchable := false; searchString := "" |}.

Record World := mkWorld {
  this : SideNavElement;
  elements : gmap nat HTMLElement;
  console : list (list string);
}.

Inductive JsError :=
| TypeError.

Inductive result (A : Type) :=
| Ok (a : A)
| Throw (e : JsError).
Arguments Ok {A} a.
Arguments Throw {A} e.

(** A method call: it returns or throws, and leaves a world behind either way. *)
Definition M (A : Type) : Type := World → result A * World.

Definition ret {A} (a : A) : M A := λ w, (Ok a, w).

Definition bind {A B} (m : M A) (k : A → M B) : M B :=
  λ w, match m w with
       | (Ok a, w') => k a w'
       | (Throw e, w') => (Throw e, w')
       end.

Definition throw {A} (e : JsError) : M A := λ w, (Throw e, w).

Definition get_this : M SideNavElement := λ w, (Ok (this w), w).

Definition set_this (s : SideNavElement) : M unit :=
  λ w, (Ok tt, {| this := s; elements := elements w; console := console w |}).

Definition get_element (r : ElementRef) : M (option HTMLElement) :=
  λ w, (Ok (elements w !! r), w).

Definition update_element (r : ElementRef) (f : HTMLElement → HTMLElement) : M unit :=
  λ w, (Ok tt, {| this := this w; elements := alter f r (elements w); console := console w |}).

Definition console_info (args : list string) : M unit :=
  λ w, (Ok tt, {| this := this w; elements := elements w; console := console w ++ [args] |}).

Declare Scope js_scope.
Delimit Scope js_scope with js.
Notation "x <- m ;; k" := (bind m (λ x, k))
  (at level 100, m at next level, right associativity) : js_scope.
Notation "m ;;; k" := (bind m (λ _, k))
  (at level 100, right associativity) : js_scope.
Local Open Scope js_scope.

(** [array.map(f)] where [f] may throw: left to right, the first throw ends it. *)
Definition mapM {A B} (f : A → M B) : list A → M (list B) :=
  fix go (l : list A) : M (list B) :=
    match l with
    | [] => ret []
    | x :: rest =>
        y <- f x ;;
        ys <- go rest ;;
        ret (y :: ys)
    end.

(** Reading a property of [undefined] throws a TypeError. *)
Definition member {A B} (o : option A) (field : A → B) : M B :=
  match o with
  | Some a => ret (field a)
  | None => throw TypeError
  end.

(** [a === b] where [a] may be [null] or [undefined] and [b] is a string. *)
Definition strict_eq (a : option string) (b : string) : bool :=
  match a with
  | Some s => String.eqb s b
  | None => false
  end.

(** [!v] where [v] is a boolean or [undefined]. *)
Definition js_not (v : option bool) : bool :=
  match v with
  | Some b => negb b
  | None => true
  end.

(** ** SideNavElement *)

Module SideNav.

(** The [li] of a group, its label and its child container. *)
Definition group_li (lbl : string) (kids : list Node) : HTMLElement :=
  mkElement "li"
    {[ "role" := "treeitem"; "class" := "expandable"; "aria-expanded" := "false" ]}
    []
    [ NElem (mkElement "span"
               {[ "class" := "group-label"; "tabindex" := "0" ]}
               [("click", OnTreeGroupClick); ("keydown", OnTreeGroupKeyDown)]
               [NText lbl]);
      NElem (mkElement "ul" {[ "role" := "group" ]} [] kids) ].

(** The [li] of a leaf and its link. *)
Definition item_li (href : string) (text : option string) : HTMLElement :=
  mkElement "li" {[ "role" := "treeitem" ]} []
    [ NElem (mkElement "a" {[ "href" := href ]} [] [child_of_string text]) ].

Definition itemHiddenForSearch (route : option Route) : M bool :=
  self <- get_this ;;
  if searchable self && Str.truthy (searchString self) then
    lbl <- member route label ;;
    ret (js_not ((λ l, Str.includes l (searchString self)) <$> lbl))
  else
    ret false.

Fixpoint renderTreeItem (treeItem : RouteTreeItem) : M (option HTMLElement) :=
  match treeItem with
  | GROUP lbl children =>
      kids <- match children with
              | Some cs =>
                  items <- mapM renderTreeItem cs ;;
                  ret (map child_of_template items)
              | None => ret [NNothing]
              end ;;
      ret (Some (group_li lbl kids))
  | ITEM index =>
      self <- get_this ;;
      let route := array_get (routes self) index in
      hidden <- itemHiddenForSearch route ;;
      if hidden then
        ret None
      else
        href <- member route path ;;
        text <- member route label ;;
        ret (Some (item_li href text))
  end.

Definition render : M (list Node) :=
  self <- get_this ;;
  let searchClasses := [("hidden", negb (searchable self))] in
  items <- mapM renderTreeItem (routeTree self) ;;
  ret [ NElem (mkElement "design-docs-sidenav-search"
                 {[ "class" := classMap searchClasses ]}
                 [("search", OnSearch)]
                 []);
        NElem (mkElement "nav" ∅ []
                 [ NElem (mkElement "ul" {[ "role" := "tree" ]} []
                            (map child_of_template items)) ]) ].

Definition onSearch (event : SideNavSearchSearchEvent) : M unit :=
  console_info ["Search happened!"; detail event] ;;;
  self <- get_this ;;
  set_this {| routes := routes self;
              routeTree := routeTree self;
              searchable := searchable self;
              searchString := detail event |}.

Definition treeGroupToggle (el : option ElementRef) : M unit :=
  match el with
  | Some r =>
      e <- get_element r ;;
      if strict_eq (e ≫= ariaExpanded) "true" then
        update_element r (λ e, set_ariaExpanded e "false")
      else
        update_element r (λ e, setAttribute e "aria-expanded" "true")
  | None => ret tt
  end.

Definition onTreeGroupKeyDown (event : KeyboardEvent) : M unit :=
  if String.eqb (key event) "Enter" then
    let el := key_target_parentElement event in
    treeGroupToggle el
  else
    ret tt.

Definition onTreeGroupClick (event : PointerEvent) : M unit :=
  let el := pointer_target_parentElement event in
  treeGroupToggle el.

End SideNav.

(** ** SideNavSearchElement *)

Module SideNavSearch.

Record SideNavSearchElement := mkSearch {
  placeholder : string;
}.

Definition new_SideNavSearchElement : SideNavSearchElement :=
  {| placeholder := "Search" |}.

Definition render (self : SideNavSearchElement) : HTMLElement :=
  mkElement "input"
    {[ "type" := "search"; "placeholder" := placeholder self ]}
    [("input", OnSearchChange)]
    [].

(** The event [onSearchChange] hands to [this.dispatchEvent]; [bubbles] is
    not in the init dictionary and keeps its default. *)
Definition onSearchChange (event : InputEvent) : CustomEvent :=
  {| type := "search";
     detail := target_value event;
     bubbles := false;
     composed := true |}.

End SideNavSearch.

(** ** Event dispatch

    The part of the DOM's dispatch algorithm that decides whether a listener
    (not a capturing one) sees an event: the way from the node the event is
    dispatched on up to the node of the listener is a list of steps, to the
    parent node or from a shadow root to its host. *)

Module Dom.

Inductive Step :=
| ToParent
| ToShadowHost.

(** A shadow root hands an event to its host only when it is composed. *)
Definition in_event_path (ev : CustomEvent) (way : list Step) : bool :=
  forallb (λ s, match s with ToParent => true | ToShadowHost => composed ev end) way.

(** The event is at its target on the node it is dispatched on and, once
    retargeted, on every shadow host it comes out of. *)
Definition at_target (way : list Step) : bool :=
  match last way with
  | None => true
  | Some ToShadowHost => true
  | Some ToParent => false
  end.

Definition listener_invoked (ev : CustomEvent) (way : list Step) : bool :=
  in_event_path ev way && (at_target way || bubbles ev).

(** From the search element, a child of the shadow root of the side
    navigation, to the side navigation element itself. *)
Definition to_sidenav_host : list Step := [ToParent; ToShadowHost].

End Dom.

(** A change of the search field, end to end: the search element dispatches
    its event on itself, where [render] has put the listener [@search]. *)
Definition search_field_changed (event : InputEvent) : M unit :=
  let ev := SideNavSearch.onSearchChange event in
  if String.eqb (type ev) "search" && Dom.listener_invoked ev [] then
    SideNav.onSearch ev
  else
    ret tt.

(** ** Induction over route trees *)

Section RouteTreeItem_induction.
Variable P : RouteTreeItem → Prop.
Hypothesis Hleaf : ∀ i, P (ITEM i).
Hypothesis Hbare : ∀ lbl, P (GROUP lbl None).
Hypothesis Hgroup : ∀ lbl cs, Forall P cs → P (GROUP lbl (Some cs)).

Fixpoint RouteTreeItem_tree_ind (t : RouteTreeItem) : P t :=
  match t with
  | ITEM i => Hleaf i
  | GROUP lbl None => Hbare lbl
  | GROUP lbl (Some cs) =>
      Hgroup lbl cs
        ((fix all (l : list RouteTreeItem) : Forall P l :=
            match l with
            | [] => List.Forall_nil P
            | c :: rest => List.Forall_cons P c rest (RouteTreeItem_tree_ind c) (all rest)
            end) cs)
  end.
End RouteTreeItem_induction.

(** Every leaf below [t] names a route of [rs]: the invariant of the data model. *)
Fixpoint indices_in_bounds (rs : Routes) (t : RouteTreeItem) : bool :=
  match t with
  | ITEM i => bool_decide (is_Some (array_get rs i))
  | GROUP _ None => true
  | GROUP _ (Some cs) => forallb (indices_in_bounds rs) cs
  end.

(** ** Computations that only read the component *)

(** [m] leaves the world as it found it, and what it returns depends on
    the fields of the component alone. *)
Definition reads_this {A} (m : M A) : Prop :=
  ∀ w, snd (m w) = w ∧ ∀ w', this w' = this w → fst (m w') = fst (m w).

(** ** Vocabulary of the statements *)

(** The label of [r] contains [q] as a substring; a missing label contains nothing. *)
Definition label_contains (r : Route) (q : string) : Prop :=
  ∃ l, label r = Some l ∧ Str.Substring q l.

(** The filtering predicate in the words of the specification: a leaf is
    hidden iff searchable is true AND searchString is non-empty AND the
    label of the route does not contain searchString. *)
Definition hidden_by_search (self : SideNavElement) (r : Route) : Prop :=
  searchable self = true ∧ searchString self ≠ "" ∧ ¬ label_contains r (searchString self).

(** The same condition as a boolean, the way [itemHiddenForSearch] computes it. *)
Definition hidden_flag (self : SideNavElement) (r : Route) : bool :=
  searchable self && Str.truthy (searchString self)
  && js_not ((λ l, Str.includes l (searchString self)) <$> label r).

(** The routes of the scenarios of the specification. *)
Definition alpha : Route := {| path := "/a"; label := Some "Alpha" |}.
Definition beta : Route := {| path := "/b"; label := Some "Beta" |}.
Definition scenario_routes : Routes := [alpha; beta].

Definition scenario (tree : RouteTree) (flag : bool) (query : string) : World :=
  {| this := {| routes := scenario_routes; routeTree := tree;
                searchable := flag; searchString := query |};
     elements := ∅;
     console := [] |}.

(** The world after one toggle of the live element [r], and the expansion
    flag of that element. *)
Definition toggled (r : ElementRef) (w : World) : World :=
  snd (SideNav.treeGroupToggle (Some r) w).

Definition expansion (r : ElementRef) (w : World) : option string :=
  elements w !! r ≫= ariaExpanded.

(** The listeners of the label of a group element, its first child. *)
Definition label_listeners (g : HTMLElement) : list (string * Listener) :=
  match childNodes g with
  | NElem span :: _ => listeners span
  | _ => []
  end.

(** What one toggle makes of an element. *)
Definition flipped (el : HTMLElement) : HTMLElement :=
  setAttribute el "aria-expanded"
    (if strict_eq (ariaExpanded el) "true" then "false" else "true").

(** The operations of the component: its renders and its handlers. *)
Inductive Operation :=
| Render
| RenderTreeItem (treeItem : RouteTreeItem)
| ItemHiddenForSearch (route : option Route)
| Search (event : SideNavSearchSearchEvent)
| SearchFieldChanged (event : InputEvent)
| TreeGroupKeyDown (event : KeyboardEvent)
| TreeGroupClick (event : PointerEvent)
| TreeGroupToggle (el : option ElementRef).

Definition world_after (op : Operation) (w : World) : World :=
  match op with
  | Render => snd (SideNav.render w)
  | RenderTreeItem treeItem => snd (SideNav.renderTreeItem treeItem w)
  | ItemHiddenForSearch route => snd (SideNav.itemHiddenForSearch route w)
  | Search event => snd (SideNav.onSearch event w)
  | SearchFieldChanged event => snd (search_field_changed event w)
  | TreeGroupKeyDown event => snd (SideNav.onTreeGroupKeyDown event w)
  | TreeGroupClick event => snd (SideNav.onTreeGroupClick event w)
  | TreeGroupToggle el => snd (SideNav.treeGroupToggle el w)
  end.

Definition world_after_all (ops : list Operation) (w : World) : World :=
  fold_left (λ w op, world_after op w) ops w.

(** ** Reading the rendered tree *)

(** An element and the elements below it, in document order. *)
Fixpoint descendants (e : HTMLElement) : list HTMLElement :=
  match e with
  | mkElement _ _ _ kids =>
      e :: (fix below (ns : list Node) : list HTMLElement :=
              match ns with
              | [] => []
              | NElem c :: rest => (descendants c ++ below rest)%list
              | _ :: rest => below rest
              end) kids
  end.

Definition node_descendants (n : Node) : list HTMLElement :=
  match n with
  | NElem c => descendants c
  | _ => []
  end.

Definition nodes_descendants (ns : list Node) : list HTMLElement :=
  concat (map node_descendants ns).

(** The links among some nodes, in document order: the href and the
    content of every [a]. *)
Definition is_link (e : HTMLElement) : bool := String.eqb (tagName e) "a".

Definition links (ns : list Node) : list (option string * list Node) :=
  map (λ a, (getAttribute a "href", childNodes a))
      (List.filter is_link (nodes_descendants ns)).

(** The link a route is shown as. *)
Definition link_to (r : Route) : option string * list Node :=
  (Some (path r), [child_of_string (label r)]).

(** The routes of the leaves below [t] that the search does not hide,
    depth first, in the order of the tree. *)
Fixpoint visible_leaves (self : SideNavElement) (t : RouteTreeItem) : list Route :=
  match t with
  | ITEM i =>
      match array_get (routes self) i with
      | Some r => if hidden_flag self r then [] else [r]
      | None => []
      end
  | GROUP _ None => []
  | GROUP _ (Some cs) => concat (map (visible_leaves self) cs)
  end.

(** The two top-level nodes of the side navigation around the items of its tree. *)
Definition page (flag : bool) (items : list (option HTMLElement)) : list Node :=
  [ NElem (mkElement "design-docs-sidenav-search"
             {[ "class" := if flag then "" else "hidden" ]}
             [("search", OnSearch)]
             []);
    NElem (mkElement "nav" ∅ []
             [ NElem (mkElement "ul" {[ "role" := "tree" ]} []
                        (map child_of_template items)) ]) ].

(** The search filters nothing: it is switched off or its string is empty. *)
Definition search_inactive (self : SideNavElement) : Prop :=
  searchable self = false ∨ searchString self = "".

(** The component with another search string. *)
Definition with_searchString (self : SideNavElement) (q : string) : SideNavElement :=
  {| routes := routes self; routeTree := routeTree self;
     searchable := searchable self; searchString := q |}.

Definition with_this (w : World) (self : SideNavElement) : World :=
  {| this := self; elements := elements w; console := console w |}.

(** The markup every element of a rendered item keeps: a list item is a
    tree item, a list below one is a group, and what is marked expandable
    is a list item that says it is collapsed. *)
Definition tree_markup (d : HTMLElement) : Prop :=
  (tagName d = "li" → getAttribute d "role" = Some "treeitem")
  ∧ (tagName d = "ul" → getAttribute d "role" = Some "group")
  ∧ (getAttribute d "class" = Some "expandable" →
     tagName d = "li" ∧ ariaExpanded d = Some "false").

(** The console line of a search. *)
Definition search_log (event : InputEvent) : list string :=
  ["Search happened!"; target_value event].

(** ** Reading the groups and the leaves *)

(** An element that is marked as an expandable group. *)
Definition is_expandable (e : HTMLElement) : bool :=
  strict_eq (getAttribute e "class") "expandable".

(** The content of the label of a group element, its first child. *)
Definition label_content (g : HTMLElement) : list Node :=
  match childNodes g with
  | NElem span :: _ => childNodes span
  | _ => []
  end.

(** The groups among some nodes, in document order: the content of the
    label and the expansion flag of every expandable element. *)
Definition rendered_groups (ns : list Node) : list (list Node * option string) :=
  map (λ g, (label_content g, ariaExpanded g))
      (List.filter is_expandable (nodes_descendants ns)).

(** A group as it is shown when it is collapsed. *)
Definition collapsed_group (lbl : string) : list Node * option string :=
  ([NText lbl], Some "false").

(** The labels of the groups of a tree item, itself included, depth first. *)
Fixpoint group_labels (t : RouteTreeItem) : list string :=
  match t with
  | ITEM _ => []
  | GROUP lbl None => [lbl]
  | GROUP lbl (Some cs) => lbl :: concat (map group_labels cs)
  end.

(** The routes of all the leaves below [t], depth first, in the order of
    the tree, whatever the search is. *)
Fixpoint all_leaves (rs : Routes) (t : RouteTreeItem) : list Route :=
  match t with
  | ITEM i =>
      match array_get rs i with
      | Some r => [r]
      | None => []
      end
  | GROUP _ None => []
  | GROUP _ (Some cs) => concat (map (all_leaves rs) cs)
  end.

(** * Properties *)

(** ** Strings: [includes] decides the substring relation *)

Section StrFacts.
Import Str.

Lemma startsWith_spec (s p : string) :
  startsWith s p = true ↔ ∃ post, s = p +:+ post.
Proof.
  revert s. induction p as [|c p IH]; intros s; simpl.
  - split; [intros _; by exists s | done].
  - destruct s as [|d s].
    + split; [done | intros [post H]; discriminate H].
    + destruct (Ascii.eqb_spec c d) as [->|Hcd].
      * rewrite IH. split; intros [post H]; exists post.
        -- by rewrite H.
        -- by injection H.
      * split; [done | intros [post H]; injection H; congruence].
Qed.

Lemma includes_spec (s sub : string) :
  includes s sub = true ↔ Substring sub s.
Proof.
  unfold Substring. induction s as [|d s IH].
  - simpl. destruct (startsWith "" sub) eqn:E.
    + apply startsWith_spec in E as [post E]. split; [intros _ | done].
      by exists "", post.
    + split; [done | intros (pre & post & H)].
      destruct pre; [|discriminate H]. simpl in H.
      assert (startsWith "" sub = true) as E' by (apply startsWith_spec; eauto).
      congruence.
  - cbn [includes]. destruct (startsWith (String d s) sub) eqn:E.
    + apply startsWith_spec in E as [post E]. split; [intros _ | done].
      by exists "", post.
    + rewrite IH. split.
      * intros (pre & post & H). exists (String d pre), post. by rewrite H.
      * intros (pre & post & H). destruct pre as [|e pre].
        -- simpl in H.
           assert (startsWith (String d s) sub = true) as E'
             by (apply startsWith_spec; eauto).
           congruence.
        -- injection H as _ H. eauto.
Qed.

Lemma includes_false (s sub : string) :
  includes s sub = false ↔ ¬ Substring sub s.
Proof.
  rewrite <- includes_spec. by destruct (includes s sub).
Qed.

Lemma truthy_spec (s : string) : truthy s = true ↔ s ≠ "".
Proof. by destruct s. Qed.

(** The comparison is of code units: letters of different case differ. *)
Example includes_case_sensitive :
  includes "Alpha" "Al" = true ∧ includes "Alpha" "al" = false.
Proof. split; reflexivity. Qed.

End StrFacts.

Lemma array_get_None {A} (l : list A) (i : Z) :
  array_get l i = None ↔ (i < 0 ∨ Z.of_nat (length l) ≤ i)%Z.
Proof.
  unfold array_get. destruct (Z.ltb_spec i 0) as [Hneg|Hpos].
  - split; [intros _; by left | done].
  - rewrite lookup_ge_None. lia.
Qed.

(** ** Frame lemmas for the readers *)

Section Frame.

Lemma reads_this_ret {A} (a : A) : reads_this (ret a).
Proof. by intros w. Qed.

Lemma reads_this_throw {A} (e : JsError) : reads_this (@throw A e).
Proof. by intros w. Qed.

Lemma reads_this_get_this : reads_this get_this.
Proof. intros w. split; [done | intros w' Hw'; simpl; by rewrite Hw']. Qed.

Lemma reads_this_member {A B} (o : option A) (f : A → B) : reads_this (member o f).
Proof. destruct o; [apply reads_this_ret | apply reads_this_throw]. Qed.

Lemma reads_this_bind {A B} (m : M A) (k : A → M B) :
  reads_this m → (∀ a, reads_this (k a)) → reads_this (bind m k).
Proof.
  intros Hm Hk w. destruct (Hm w) as [Hs Hf]. unfold bind.
  destruct (m w) as [[a|e] w1] eqn:E; simpl in Hs; subst w1.
  - split; [apply Hk |]. intros w' Hw'.
    specialize (Hf w' Hw'). destruct (Hm w') as [Hs' _].
    destruct (m w') as [r w1']; simpl in *; subst.
    by apply Hk.
  - split; [done |]. intros w' Hw'.
    specialize (Hf w' Hw'). by destruct (m w') as [r w1']; simpl in *; subst.
Qed.

Lemma reads_this_mapM {A B} (f : A → M B) (l : list A) :
  Forall (λ x, reads_this (f x)) l → reads_this (mapM f l).
Proof.
  induction 1 as [|x rest Hx _ IH]; simpl.
  - apply reads_this_ret.
  - apply reads_this_bind; [done | intros y].
    apply reads_this_bind; [done | intros ys]. apply reads_this_ret.
Qed.

Lemma reads_this_itemHiddenForSearch (route : option Route) :
  reads_this (SideNav.itemHiddenForSearch route).
Proof.
  apply reads_this_bind; [apply reads_this_get_this | intros self].
  destruct (_ && _); [| apply reads_this_ret].
  apply reads_this_bind; [apply reads_this_member | intros; apply reads_this_ret].
Qed.

Lemma reads_this_renderTreeItem (t : RouteTreeItem) :
  reads_this (SideNav.renderTreeItem t).
Proof.
  induction t as [i | lbl | lbl cs IH] using RouteTreeItem_tree_ind;
    cbn [SideNav.renderTreeItem].
  - apply reads_this_bind; [apply reads_this_get_this | intros self].
    apply reads_this_bind; [apply reads_this_itemHiddenForSearch | intros hidden].
    destruct hidden; [apply reads_this_ret |].
    apply reads_this_bind; [apply reads_this_member | intros href].
    apply reads_this_bind; [apply reads_this_member | intros; apply reads_this_ret].
  - apply reads_this_bind; intros; apply reads_this_ret.
  - apply reads_this_bind; [| intros; apply reads_this_ret].
    apply reads_this_bind; [| intros; apply reads_this_ret].
    by apply reads_this_mapM.
Qed.

Lemma reads_this_render : reads_this SideNav.render.
Proof.
  apply reads_this_bind; [apply reads_this_get_this | intros self].
  apply reads_this_bind; [| intros; apply reads_this_ret].
  apply reads_this_mapM, Forall_forall. intros; apply reads_this_renderTreeItem.
Qed.

(** A reader's run is its result paired with the untouched world. *)
Lemma reads_this_run {A} (m : M A) (w : World) :
  reads_this m → m w = (fst (m w), w).
Proof. intros H. destruct (H w) as [Hs _]. by destruct (m w); simpl in *; subst. Qed.

End Frame.

(** ** Leaves *)

Section Leaves.
Import SideNav.

Lemma hidden_flag_spec (self : SideNavElement) (r : Route) :
  hidden_flag self r = true ↔ hidden_by_search self r.
Proof.
  unfold hidden_flag, hidden_by_search, label_contains.
  rewrite !andb_true_iff, truthy_spec.
  destruct (label r) as [l|]; simpl.
  - rewrite negb_true_iff, includes_false. split.
    + intros [[? ?] Hn]. split_and!; [done..|]. intros (l' & [= <-] & Hs). by apply Hn.
    + intros (? & ? & Hn). split_and!; [done..|]. intros Hs. apply Hn. eauto.
  - split.
    + intros [[? ?] _]. split_and!; [done..|]. by intros (? & ? & _).
    + intros (? & ? & _). done.
Qed.

Lemma itemHiddenForSearch_defined (w : World) (r : Route) :
  itemHiddenForSearch (Some r) w = (Ok (hidden_flag (this w) r), w).
Proof.
  unfold itemHiddenForSearch, hidden_flag, bind, get_this, member, ret.
  by destruct (searchable (this w) && Str.truthy (searchString (this w))).
Qed.

Lemma itemHiddenForSearch_undefined (w : World) :
  itemHiddenForSearch None w =
    (if searchable (this w) && Str.truthy (searchString (this w))
     then Throw TypeError else Ok false, w).
Proof.
  unfold itemHiddenForSearch, bind, get_this, member, ret, throw.
  by destruct (searchable (this w) && Str.truthy (searchString (this w))).
Qed.

Lemma renderTreeItem_leaf (w : World) (i : Z) (r : Route) :
  array_get (routes (this w)) i = Some r →
  renderTreeItem (ITEM i) w =
    (Ok (if hidden_flag (this w) r then None else Some (item_li (path r) (label r))), w).
Proof.
  intros Hr. cbn [renderTreeItem]. unfold bind at 1. cbn [get_this].
  rewrite Hr. unfold bind at 1. rewrite itemHiddenForSearch_defined.
  by destruct (hidden_flag (this w) r).
Qed.

(** C1. A leaf whose index resolves to route [r] is hidden ([renderTreeItem]
    returns [null]) if and only if searchable is true, searchString is not
    empty and the label of [r] does not contain searchString as a
    case-sensitive substring; in every other case it is rendered as a list
    item with the role "treeitem" around one link, whose href is [r.path]
    and whose text is [r.label]. *)
Theorem C1_leaf_hidden_iff (w : World) (i : Z) (r : Route) :
  array_get (routes (this w)) i = Some r →
  (renderTreeItem (ITEM i) w = (Ok None, w) ↔ hidden_by_search (this w) r)
  ∧ (¬ hidden_by_search (this w) r →
     renderTreeItem (ITEM i) w =
       (Ok (Some
              (mkElement "li" {[ "role" := "treeitem" ]} []
                 [ NElem (mkElement "a" {[ "href" := path r ]} []
                            [ match label r with
                              | Some text => NText text
                              | None => NNothing
                              end ]) ])),
        w)).
Proof.
  intros Hr. rewrite (renderTreeItem_leaf w i r Hr), <- hidden_flag_spec.
  destruct (hidden_flag (this w) r); split; done.
Qed.

Lemma C1_leaf_hidden_iff_witness :
  let w := scenario [ITEM 0; ITEM 1] true "Be" in
  array_get (routes (this w)) 1 = Some beta
  ∧ (renderTreeItem (ITEM 1) w = (Ok None, w) ↔ hidden_by_search (this w) beta)
  ∧ (¬ hidden_by_search (this w) beta →
     renderTreeItem (ITEM 1) w =
       (Ok (Some
              (mkElement "li" {[ "role" := "treeitem" ]} []
                 [ NElem (mkElement "a" {[ "href" := "/b" ]} [] [NText "Beta"]) ])),
        w)).
Proof.
  intros w. split; [reflexivity |].
  apply (C1_leaf_hidden_iff w 1 beta). reflexivity.
Defined.

(** C5. A leaf whose index is outside the bounds of [routes] is not
    guarded: the lookup yields [undefined], nothing is put in its place, and
    rendering the leaf throws a TypeError when the route is accessed. *)
Theorem C5_leaf_out_of_bounds_throws (w : World) (i : Z) :
  (i < 0 ∨ Z.of_nat (length (routes (this w))) ≤ i)%Z →
  array_get (routes (this w)) i = None
  ∧ renderTreeItem (ITEM i) w = (Throw TypeError, w).
Proof.
  intros Hi. apply array_get_None in Hi. split; [done |].
  cbn [renderTreeItem]. unfold bind at 1. cbn [get_this].
  rewrite Hi. unfold bind at 1. rewrite itemHiddenForSearch_undefined.
  by destruct (searchable (this w) && Str.truthy (searchString (this w))).
Qed.

Lemma C5_leaf_out_of_bounds_throws_witness :
  let w := scenario [ITEM 2] false "" in
  array_get (routes (this w)) 2 = None
  ∧ renderTreeItem (ITEM 2) w = (Throw TypeError, w).
Proof.
  intros w. apply (C5_leaf_out_of_bounds_throws w 2). right. simpl. lia.
Defined.

(** C10. For a route whose label is missing, [itemHiddenForSearch] returns
    true whenever searchable is true and searchString is not empty: the
    optional chain makes the leaf a non-match, the predicate does not throw. *)
Theorem C10_missing_label_hidden (w : World) (r : Route) :
  label r = None →
  searchable (this w) = true →
  searchString (this w) ≠ "" →
  itemHiddenForSearch (Some r) w = (Ok true, w).
Proof.
  intros Hl Hs Hq. rewrite itemHiddenForSearch_defined. unfold hidden_flag.
  apply truthy_spec in Hq. by rewrite Hl, Hs, Hq.
Qed.

Lemma C10_missing_label_hidden_witness :
  itemHiddenForSearch (Some {| path := "/c"; label := None |})
    (scenario [] true "a")
  = (Ok true, scenario [] true "a").
Proof.
  apply C10_missing_label_hidden; [reflexivity | reflexivity | discriminate].
Defined.

End Leaves.

(** ** Groups *)

Section Groups.
Import SideNav.

Lemma mapM_ok {A B} (f : A → M B) (l : list A) (w : World) :
  Forall (λ x, reads_this (f x)) l →
  Forall (λ x, ∃ y, fst (f x w) = Ok y) l →
  ∃ ys, mapM f l w = (Ok ys, w) ∧ length ys = length l.
Proof.
  induction l as [|x rest IH]; intros Hread Hok.
  - by exists [].
  - apply Forall_cons in Hread as [Hx Hrest]. apply Forall_cons in Hok as [[y Hy] Hokr].
    destruct (IH Hrest Hokr) as (ys & Hys & Hlen).
    exists (y :: ys). split; [| simpl; by rewrite Hlen].
    cbn [mapM]. unfold bind at 1. rewrite (reads_this_run _ w Hx), Hy.
    unfold bind at 1. fold (mapM f rest). by rewrite Hys.
Qed.

Lemma renderTreeItem_in_bounds (w : World) (t : RouteTreeItem) :
  indices_in_bounds (routes (this w)) t = true →
  ∃ r, fst (renderTreeItem t w) = Ok r.
Proof.
  induction t as [i | lbl | lbl cs IH] using RouteTreeItem_tree_ind;
    cbn [indices_in_bounds]; intros Hb.
  - apply bool_decide_eq_true in Hb as [r Hr].
    rewrite (renderTreeItem_leaf w i r Hr). eauto.
  - by eexists.
  - destruct (mapM_ok renderTreeItem cs w) as (items & Hitems & _).
    + apply Forall_forall. intros; apply reads_this_renderTreeItem.
    + rewrite forallb_forall in Hb. rewrite Forall_forall in IH |- *.
      intros c Hc. apply IH; [done |]. by apply Hb, list_elem_of_In.
    + cbn [renderTreeItem]. unfold bind. rewrite Hitems. by eexists.
Qed.

(** A group is never rendered as [null], well-formed tree or not. *)
Lemma group_never_null (w : World) (lbl : string) (cs : option (list RouteTreeItem)) :
  fst (renderTreeItem (GROUP lbl cs) w) ≠ Ok None.
Proof.
  cbn [renderTreeItem]. unfold bind at 1.
  by destruct (_ w) as [[kids|e] w'].
Qed.

(** The scenario of the specification: the only child is filtered out, the
    group is rendered around nothing. *)
Example scenario_group_zzz :
  let w := scenario [GROUP "G" (Some [ITEM 0])] true "zzz" in
  renderTreeItem (GROUP "G" (Some [ITEM 0])) w
  = (Ok (Some (group_li "G" [NNothing])), w).
Proof. reflexivity. Qed.

End Groups.

(** ** Expansion state *)

Section Expansion.
Import SideNav.

Lemma alter_as_insert (m : gmap nat HTMLElement) (f : HTMLElement → HTMLElement)
    (r : nat) (el : HTMLElement) :
  m !! r = Some el → alter f r m = <[r := f el]> m.
Proof.
  intros Hr. apply map_eq. intros j.
  rewrite lookup_alter, lookup_insert. case_decide; subst; by rewrite ?Hr.
Qed.

Lemma treeGroupToggle_run (w : World) (r : ElementRef) (el : HTMLElement) :
  elements w !! r = Some el →
  treeGroupToggle (Some r) w =
    (Ok tt,
     {| this := this w;
        elements := <[r := flipped el]> (elements w);
        console := console w |}).
Proof.
  intros Hr. unfold treeGroupToggle, bind, get_element, flipped.
  rewrite Hr. cbn [mbind option_bind].
  destruct (strict_eq (ariaExpanded el) "true");
    unfold update_element, set_ariaExpanded; by rewrite (alter_as_insert _ _ r el Hr).
Qed.

Lemma ariaExpanded_flipped (el : HTMLElement) :
  ariaExpanded (flipped el)
  = Some (if strict_eq (ariaExpanded el) "true" then "false" else "true").
Proof.
  unfold flipped, ariaExpanded at 1, getAttribute, setAttribute. cbn [attributes].
  apply lookup_insert_eq.
Qed.

Lemma flipped_twice (el : HTMLElement) :
  ariaExpanded el = Some "false" ∨ ariaExpanded el = Some "true" →
  flipped (flipped el) = el.
Proof.
  destruct el as [t attrs ls kids].
  unfold flipped, ariaExpanded, getAttribute, setAttribute. cbn [attributes tagName listeners childNodes].
  intros [Hs|Hs]; rewrite Hs; cbn [strict_eq String.eqb Ascii.eqb Bool.eqb];
    rewrite lookup_insert_eq; cbn [strict_eq String.eqb Ascii.eqb Bool.eqb];
    by rewrite insert_insert_eq, insert_id.
Qed.

Lemma toggled_twice (w : World) (r : ElementRef) (el : HTMLElement) :
  elements w !! r = Some el →
  ariaExpanded el = Some "false" ∨ ariaExpanded el = Some "true" →
  toggled r (toggled r w) = w.
Proof.
  intros Hr Hstate. unfold toggled.
  rewrite (treeGroupToggle_run w r el Hr). cbn [snd].
  erewrite treeGroupToggle_run; [| cbn [elements]; apply lookup_insert_eq].
  cbn [snd this elements console].
  rewrite insert_insert_eq, (flipped_twice el Hstate), (insert_id _ _ _ Hr).
  by destruct w.
Qed.

(** C2. The expansion state of a group is collapsed when it is rendered
    ([aria-expanded] is "false"); one toggle of the mounted element takes it
    to expanded, a second one back to collapsed, and the same holds from the
    expanded state: toggle flips the flag and is an involution. *)
Theorem C2_toggle_involution (w : World) (lbl : string)
    (cs : option (list RouteTreeItem)) (g : HTMLElement) (r : ElementRef) :
  fst (renderTreeItem (GROUP lbl cs) w) = Ok (Some g) →
  elements w !! r = Some g →
  ariaExpanded g = Some "false"
  ∧ expansion r w = Some "false"
  ∧ expansion r (toggled r w) = Some "true"
  ∧ expansion r (toggled r (toggled r w)) = Some "false"
  ∧ toggled r (toggled r w) = w
  ∧ toggled r (toggled r (toggled r w)) = toggled r w.
Proof.
  intros Hrender Hr.
  assert (ariaExpanded g = Some "false") as Hg.
  { cbn [renderTreeItem] in Hrender. unfold bind at 1 in Hrender.
    destruct (_ w) as [[kids|e] w'] in Hrender; [| done].
    by injection Hrender as <-. }
  assert (toggled r (toggled r w) = w) as Hinv by (eapply toggled_twice; eauto).
  assert (expansion r w = Some "false") as Hw by (unfold expansion; by rewrite Hr).
  split_and!; [done | done | | by rewrite Hinv | done | by rewrite Hinv].
  unfold toggled, expansion. rewrite (treeGroupToggle_run w r g Hr).
  cbn [snd elements]. rewrite lookup_insert_eq. cbn [mbind option_bind].
  by rewrite ariaExpanded_flipped, Hg.
Qed.

Lemma C2_toggle_involution_witness :
  let g := group_li "G" [NNothing] in
  let w := {| this := this (scenario [GROUP "G" (Some [ITEM 0])] true "zzz");
              elements := {[ 7 := g ]};
              console := [] |} in
  ariaExpanded g = Some "false"
  ∧ expansion 7 w = Some "false"
  ∧ expansion 7 (toggled 7 w) = Some "true"
  ∧ expansion 7 (toggled 7 (toggled 7 w)) = Some "false"
  ∧ toggled 7 (toggled 7 w) = w
  ∧ toggled 7 (toggled 7 (toggled 7 w)) = toggled 7 w.
Proof.
  intros g w.
  apply (C2_toggle_involution w "G" (Some [ITEM 0]) g 7); reflexivity.
Defined.

(** C6. A keydown on a group label whose key is not "Enter" leaves the
    world, and with it the expansion state of every group, unchanged. The
    toggle runs on "Enter" and on a click, and the label of a group has no
    listener but these two. *)
Theorem C6_only_enter_and_click_toggle (w : World) (event : KeyboardEvent) :
  key event ≠ "Enter" →
  onTreeGroupKeyDown event w = (Ok tt, w)
  ∧ (∀ el, onTreeGroupKeyDown {| key := "Enter"; key_target_parentElement := el |}
           = treeGroupToggle el)
  ∧ (∀ el, onTreeGroupClick {| pointer_target_parentElement := el |}
           = treeGroupToggle el)
  ∧ (∀ lbl kids, label_listeners (group_li lbl kids)
                 = [("click", OnTreeGroupClick); ("keydown", OnTreeGroupKeyDown)]).
Proof.
  intros Hkey. split_and!; [| done..].
  unfold onTreeGroupKeyDown.
  destruct (String.eqb_spec (key event) "Enter"); [done | reflexivity].
Qed.

Lemma C6_only_enter_and_click_toggle_witness :
  let w := {| this := new_SideNavElement;
              elements := {[ 7 := SideNav.group_li "G" [] ]};
              console := [] |} in
  onTreeGroupKeyDown {| key := "Tab"; key_target_parentElement := Some 7 |} w = (Ok tt, w).
Proof.
  intros w.
  apply (C6_only_enter_and_click_toggle w
           {| key := "Tab"; key_target_parentElement := Some 7 |}).
  discriminate.
Defined.

End Expansion.

(** ** Search *)

Section Search.
Import SideNav.

(** C4. The event the search element dispatches has type "search", carries
    the current value of the input as its detail and is composed, so that it
    leaves the shadow tree it is dispatched in: a listener on the side
    navigation element, the host of that tree, is invoked. *)
Theorem C4_search_event_crosses_boundary (event : InputEvent) :
  let ev := SideNavSearch.onSearchChange event in
  type ev = "search"
  ∧ detail ev = target_value event
  ∧ composed ev = true
  ∧ Dom.listener_invoked ev Dom.to_sidenav_host = true.
Proof. by split_and!. Qed.

(** Without the [composed] flag the same event would stop at the shadow root. *)
Remark not_composed_stays_inside (ev : CustomEvent) :
  composed ev = false → Dom.listener_invoked ev Dom.to_sidenav_host = false.
Proof. unfold Dom.listener_invoked, Dom.in_event_path. simpl. by intros ->. Qed.

(** The event does not bubble: beyond the host, on an ancestor of the side
    navigation element, no listener is invoked. *)
Remark search_event_stops_at_host (event : InputEvent) :
  Dom.listener_invoked (SideNavSearch.onSearchChange event)
    (Dom.to_sidenav_host ++ [Dom.ToParent]) = false.
Proof. reflexivity. Qed.

Lemma onSearch_run (w : World) (ev : SideNavSearchSearchEvent) :
  onSearch ev w =
    (Ok tt,
     {| this := {| routes := routes (this w);
                   routeTree := routeTree (this w);
                   searchable := searchable (this w);
                   searchString := detail ev |};
        elements := elements w;
        console := console w ++ [["Search happened!"; detail ev]] |}).
Proof. reflexivity. Qed.

(** C7. When the value of the search field changes and is [v], the search
    element emits an event whose detail is [v]; the handler of the side
    navigation stores it in searchString as it is, touching no other field,
    and the leaves rendered afterwards are filtered against [v]. *)
Theorem C7_search_value_stored (w : World) (event : InputEvent) :
  let v := target_value event in
  let ev := SideNavSearch.onSearchChange event in
  let w' := snd (onSearch ev w) in
  detail ev = v
  ∧ search_field_changed event w = onSearch ev w
  ∧ fst (onSearch ev w) = Ok tt
  ∧ searchString (this w') = v
  ∧ routes (this w') = routes (this w)
  ∧ routeTree (this w') = routeTree (this w)
  ∧ searchable (this w') = searchable (this w)
  ∧ (∀ i r, array_get (routes (this w)) i = Some r →
       (renderTreeItem (ITEM i) w' = (Ok None, w')
        ↔ searchable (this w) = true ∧ v ≠ "" ∧ ¬ label_contains r v)).
Proof.
  intros v ev w'. split_and!; try reflexivity.
  intros i r Hr. subst w'. rewrite onSearch_run. cbn [snd].
  rewrite (renderTreeItem_leaf _ i r) by done.
  match goal with |- context [hidden_flag ?s r] =>
    pose proof (hidden_flag_spec s r) as Hspec; destruct (hidden_flag s r) end.
  - split; [intros _; exact (proj1 Hspec eq_refl) | done].
  - split; [done | intros Hv]. by pose proof (proj2 Hspec Hv).
Qed.

End Search.

(** ** Rendering is a function of the inputs; the inputs are never written *)

Section Inputs.
Import SideNav.

(** C8. Rendering is deterministic in its inputs: two renders with the
    same routes, routeTree, searchable and searchString produce the same
    output, whatever the expansion state of the live elements is, and a
    render does no interaction: rendering again gives the same output. *)
Theorem C8_render_deterministic (w1 w2 : World) :
  routes (this w1) = routes (this w2) →
  routeTree (this w1) = routeTree (this w2) →
  searchable (this w1) = searchable (this w2) →
  searchString (this w1) = searchString (this w2) →
  fst (render w1) = fst (render w2)
  ∧ snd (render w1) = w1
  ∧ fst (render (snd (render w1))) = fst (render w1).
Proof.
  intros Hr Ht Hs Hq.
  assert (this w1 = this w2) as Hthis.
  { destruct (this w1), (this w2); simpl in *; congruence. }
  destruct (reads_this_render w2) as [_ Hsame].
  destruct (reads_this_render w1) as [Hkeep _].
  split_and!; [by apply Hsame | done | by rewrite Hkeep].
Qed.

Lemma C8_render_deterministic_witness :
  let w1 := scenario [GROUP "G" (Some [ITEM 0]); ITEM 1] true "Be" in
  let w2 := {| this := this w1;
               elements := {[ 7 := flipped (group_li "G" [NNothing]) ]};
               console := [["Search happened!"; "Be"]] |} in
  fst (render w1) = fst (render w2)
  ∧ snd (render w1) = w1
  ∧ fst (render (snd (render w1))) = fst (render w1).
Proof.
  intros w1 w2. apply (C8_render_deterministic w1 w2); reflexivity.
Defined.

(** An operation that writes neither [routes] nor [routeTree]. *)
Lemma world_after_inputs (op : Operation) (w : World) :
  routes (this (world_after op w)) = routes (this w)
  ∧ routeTree (this (world_after op w)) = routeTree (this w).
Proof.
  destruct op as [|t|route|ev|ev|ev|ev|el]; cbn [world_after].
  - by rewrite (proj1 (reads_this_render w)).
  - by rewrite (proj1 (reads_this_renderTreeItem t w)).
  - by rewrite (proj1 (reads_this_itemHiddenForSearch route w)).
  - done.
  - done.
  - unfold onTreeGroupKeyDown. destruct (String.eqb _ _); [| done].
    destruct (key_target_parentElement ev) as [r|]; [| done].
    unfold treeGroupToggle, bind, get_element. by destruct (strict_eq _ _).
  - unfold onTreeGroupClick.
    destruct (pointer_target_parentElement ev) as [r|]; [| done].
    unfold treeGroupToggle, bind, get_element. by destruct (strict_eq _ _).
  - destruct el as [r|]; [| done].
    unfold treeGroupToggle, bind, get_element. by destruct (strict_eq _ _).
Qed.

(** C9. No render and no handler writes the inputs: after any sequence of
    renders, searches and toggles, [routes] and [routeTree] are the
    sequences they were, element for element. *)
Theorem C9_inputs_never_mutated (ops : list Operation) (w : World) :
  routes (this (world_after_all ops w)) = routes (this w)
  ∧ routeTree (this (world_after_all ops w)) = routeTree (this w).
Proof.
  unfold world_after_all. revert w.
  induction ops as [|op ops IH]; intros w; [done |].
  cbn [fold_left]. destruct (IH (world_after op w)) as [-> ->].
  apply world_after_inputs.
Qed.

End Inputs.

(** ** The scenarios of the specification *)

Section Scenarios.
Import SideNav.

(** Searching "Be" over Alpha and Beta: the Alpha leaf is absent, the Beta
    leaf is a link to "/b". *)
Example scenario_search_Be :
  let w := scenario [ITEM 0; ITEM 1] true "Be" in
  fst (renderTreeItem (ITEM 0) w) = Ok None
  ∧ fst (renderTreeItem (ITEM 1) w) = Ok (Some (item_li "/b" (Some "Beta"))).
Proof. split; reflexivity. Qed.

(** With [searchable] off nothing is filtered, whatever the search string is. *)
Example scenario_not_searchable :
  let w := scenario [ITEM 0; ITEM 1] false "Be" in
  fst (renderTreeItem (ITEM 0) w) = Ok (Some (item_li "/a" (Some "Alpha"))).
Proof. reflexivity. Qed.

(** Typing "Al": the value reaches [searchString] and the console. *)
Example scenario_typing_Al :
  let w := scenario [ITEM 0; ITEM 1] true "" in
  let w' := snd (search_field_changed {| target_value := "Al" |} w) in
  searchString (this w') = "Al"
  ∧ console w' = [["Search happened!"; "Al"]]
  ∧ fst (renderTreeItem (ITEM 0) w') = Ok (Some (item_li "/a" (Some "Alpha")))
  ∧ fst (renderTreeItem (ITEM 1) w') = Ok None.
Proof. split_and!; reflexivity. Qed.

End Scenarios.

(** ** The whole render *)

Section WholeRender.
Import SideNav.

Lemma descendants_unfold (tag : string) (attrs : gmap string string)
    (ls : list (string * Listener)) (kids : list Node) :
  descendants (mkElement tag attrs ls kids)
  = mkElement tag attrs ls kids :: nodes_descendants kids.
Proof.
  cbn [descendants]. f_equal. unfold nodes_descendants.
  induction kids as [|[c| |] rest IH]; cbn [map concat node_descendants]; by rewrite ?IH.
Qed.

Lemma nodes_descendants_cons (n : Node) (ns : list Node) :
  nodes_descendants (n :: ns) = (node_descendants n ++ nodes_descendants ns)%list.
Proof. reflexivity. Qed.

Lemma links_app (ns ms : list Node) : links (ns ++ ms) = (links ns ++ links ms)%list.
Proof.
  unfold links, nodes_descendants.
  by rewrite map_app, concat_app, List.filter_app, map_app.
Qed.

Lemma links_cons (n : Node) (ns : list Node) : links (n :: ns) = (links [n] ++ links ns)%list.
Proof. apply (links_app [n] ns). Qed.

Lemma links_element (tag : string) (attrs : gmap string string)
    (ls : list (string * Listener)) (kids : list Node) :
  links [NElem (mkElement tag attrs ls kids)]
  = ((if String.eqb tag "a" then [(attrs !! "href", kids)] else []) ++ links kids)%list.
Proof.
  unfold links, nodes_descendants at 1. cbn [map concat node_descendants].
  rewrite app_nil_r, descendants_unfold. cbn [List.filter].
  unfold is_link at 1. cbn [tagName].
  by destruct (String.eqb tag "a").
Qed.

Lemma links_item_li (href : string) (text : option string) :
  links [NElem (item_li href text)] = [(Some href, [child_of_string text])].
Proof.
  unfold item_li. rewrite !links_element. cbn [String.eqb Ascii.eqb Bool.eqb app].
  rewrite lookup_singleton_eq. by destruct text.
Qed.

Lemma links_group_li (lbl : string) (kids : list Node) :
  links [NElem (group_li lbl kids)] = links kids.
Proof.
  unfold group_li. rewrite links_element. cbn [String.eqb Ascii.eqb Bool.eqb app].
  rewrite links_cons, !links_element. cbn [String.eqb Ascii.eqb Bool.eqb app].
  reflexivity.
Qed.

Lemma mapM_Forall2 {A B} (f : A → M B) (l : list A) (w : World) (Q : A → B → Prop) :
  Forall (λ x, ∃ y, f x w = (Ok y, w) ∧ Q x y) l →
  ∃ ys, mapM f l w = (Ok ys, w) ∧ Forall2 Q l ys.
Proof.
  induction 1 as [|x rest (y & Hy & Hq) _ (ys & Hys & Hall)].
  - exists []. by split.
  - exists (y :: ys). split; [| by constructor].
    cbn [mapM]. unfold bind at 1. rewrite Hy.
    unfold bind at 1. fold (mapM f rest). by rewrite Hys.
Qed.

Lemma mapM_throws {A B} (f : A → M B) (l : list A) (w : World) :
  Forall (λ x, reads_this (f x)) l →
  Exists (λ x, fst (f x w) = Throw TypeError) l →
  mapM f l w = (Throw TypeError, w).
Proof.
  induction 1 as [|x rest Hx _ IH]; intros Hex; [by apply Exists_nil in Hex |].
  cbn [mapM]. unfold bind at 1. rewrite (reads_this_run _ w Hx).
  destruct (fst (f x w)) as [y|[]] eqn:Hy; [| done].
  apply Exists_cons in Hex as [Hhead|Htail]; [congruence |].
  unfold bind at 1. fold (mapM f rest). by rewrite (IH Htail).
Qed.

Lemma renderTreeItem_leaf_undefined (w : World) (i : Z) :
  array_get (routes (this w)) i = None →
  renderTreeItem (ITEM i) w = (Throw TypeError, w).
Proof.
  intros Hi. cbn [renderTreeItem]. unfold bind at 1. cbn [get_this].
  rewrite Hi. unfold bind at 1. rewrite itemHiddenForSearch_undefined.
  by destruct (searchable (this w) && Str.truthy (searchString (this w))).
Qed.

Lemma links_items (self : SideNavElement) (cs : list RouteTreeItem)
    (items : list (option HTMLElement)) :
  Forall2 (λ c item, links [child_of_template item]
                     = map link_to (visible_leaves self c)) cs items →
  links (map child_of_template items)
  = map link_to (concat (map (visible_leaves self) cs)).
Proof.
  induction 1 as [|c item cs items Hc _ IH]; [done |].
  cbn [map concat]. by rewrite links_cons, map_app, Hc, IH.
Qed.

Lemma renderTreeItem_links (w : World) (t : RouteTreeItem) :
  indices_in_bounds (routes (this w)) t = true →
  ∃ item, renderTreeItem t w = (Ok item, w)
          ∧ links [child_of_template item] = map link_to (visible_leaves (this w) t).
Proof.
  induction t as [i | lbl | lbl cs IH] using RouteTreeItem_tree_ind;
    cbn [indices_in_bounds visible_leaves]; intros Hb.
  - apply bool_decide_eq_true in Hb as [r Hr].
    rewrite (renderTreeItem_leaf w i r Hr), Hr. eexists; split; [done |].
    destruct (hidden_flag (this w) r); [done |]. apply links_item_li.
  - eexists; split; [reflexivity |]. apply links_group_li.
  - rewrite forallb_forall in Hb.
    destruct (mapM_Forall2 renderTreeItem cs w
                (λ c item, links [child_of_template item]
                           = map link_to (visible_leaves (this w) c)))
      as (items & Hitems & Hall).
    { rewrite Forall_forall in IH |- *. intros c Hc.
      apply IH; [done |]. by apply Hb, list_elem_of_In. }
    exists (Some (group_li lbl (map child_of_template items))). split.
    + cbn [renderTreeItem]. unfold bind. by rewrite Hitems.
    + cbn [child_of_template]. rewrite links_group_li. by apply links_items.
Qed.

Lemma renderTreeItem_out_of_bounds (w : World) (t : RouteTreeItem) :
  indices_in_bounds (routes (this w)) t = false →
  renderTreeItem t w = (Throw TypeError, w).
Proof.
  induction t as [i | lbl | lbl cs IH] using RouteTreeItem_tree_ind;
    cbn [indices_in_bounds]; intros Hb.
  - apply bool_decide_eq_false in Hb. apply renderTreeItem_leaf_undefined.
    destruct (array_get _ i) eqn:E; [| done]. by destruct Hb.
  - done.
  - cbn [renderTreeItem]. unfold bind at 1. unfold bind at 1.
    rewrite (mapM_throws renderTreeItem cs w); [done | |].
    + apply Forall_forall. intros; apply reads_this_renderTreeItem.
    + induction IH as [|c rest Hc _ IHrest]; [done |].
      cbn [forallb] in Hb. apply andb_false_iff in Hb as [Hb|Hb].
      * apply Exists_cons_hd. by rewrite (Hc Hb).
      * apply Exists_cons_tl. by apply IHrest.
Qed.

Lemma classMap_hidden (flag : bool) :
  classMap [("hidden", negb flag)] = if flag then "" else "hidden".
Proof. by destruct flag. Qed.

Lemma links_page (flag : bool) (items : list (option HTMLElement)) :
  links (page flag items) = links (map child_of_template items).
Proof.
  unfold page. rewrite links_cons, !links_element.
  cbn [String.eqb Ascii.eqb Bool.eqb app]. reflexivity.
Qed.

Lemma render_in_bounds (w : World) :
  forallb (indices_in_bounds (routes (this w))) (routeTree (this w)) = true →
  ∃ items,
    render w = (Ok (page (searchable (this w)) items), w)
    ∧ Forall2 (λ t item, renderTreeItem t w = (Ok item, w)
                         ∧ links [child_of_template item]
                           = map link_to (visible_leaves (this w) t))
        (routeTree (this w)) items.
Proof.
  intros Hb. rewrite forallb_forall in Hb.
  destruct (mapM_Forall2 renderTreeItem (routeTree (this w)) w
              (λ t item, renderTreeItem t w = (Ok item, w)
                         ∧ links [child_of_template item]
                           = map link_to (visible_leaves (this w) t)))
    as (items & Hitems & Hall).
  { apply Forall_forall. intros t Ht.
    destruct (renderTreeItem_links w t) as (item & Hitem & Hlinks); [| by eauto].
    by apply Hb, list_elem_of_In. }
  exists items. split; [| done].
  unfold render, bind at 1. cbn [get_this]. unfold bind at 1.
  rewrite Hitems. unfold ret, page. by rewrite classMap_hidden.
Qed.

(** X1. When every leaf of the tree names a route, [render] returns: the
    search element, with class "hidden" exactly when searchable is off, and
    the tree with one child per top-level item, each the render of its
    item, in the order of [routeTree]. The world is left as it was. *)
Theorem X1_render_returns_page (w : World) :
  forallb (indices_in_bounds (routes (this w))) (routeTree (this w)) = true →
  ∃ items,
    render w = (Ok (page (searchable (this w)) items), w)
    ∧ Forall2 (λ t item, renderTreeItem t w = (Ok item, w)) (routeTree (this w)) items.
Proof.
  intros Hb. destruct (render_in_bounds w Hb) as (items & Hrender & Hall).
  exists items. split; [done |].
  eapply Forall2_impl; [exact Hall |]. by intros t item [? _].
Qed.

Lemma X1_render_returns_page_witness :
  let w := scenario [GROUP "G" (Some [ITEM 0]); ITEM 1] true "Be" in
  ∃ items,
    render w = (Ok (page (searchable (this w)) items), w)
    ∧ Forall2 (λ t item, renderTreeItem t w = (Ok item, w)) (routeTree (this w)) items.
Proof.
  intros w. apply (X1_render_returns_page w). reflexivity.
Defined.

(** X2. The links of a render are the routes of the leaves that the
    search does not hide, depth first through the groups and in the order of
    the tree: each with its path as href and its label as text. *)
Theorem X2_render_links_are_visible_leaves (w : World) :
  forallb (indices_in_bounds (routes (this w))) (routeTree (this w)) = true →
  ∃ nodes,
    fst (render w) = Ok nodes
    ∧ links nodes
      = map link_to (concat (map (visible_leaves (this w)) (routeTree (this w)))).
Proof.
  intros Hb. destruct (render_in_bounds w Hb) as (items & Hrender & Hall).
  exists (page (searchable (this w)) items). split; [by rewrite Hrender |].
  rewrite links_page. apply links_items.
  eapply Forall2_impl; [exact Hall |]. by intros t item [_ ?].
Qed.

Lemma X2_render_links_are_visible_leaves_witness :
  let w := scenario [GROUP "G" (Some [ITEM 1; ITEM 0]); ITEM 1] true "a" in
  ∃ nodes,
    fst (render w) = Ok nodes
    ∧ links nodes
      = map link_to (concat (map (visible_leaves (this w)) (routeTree (this w)))).
Proof.
  intros w. apply (X2_render_links_are_visible_leaves w). reflexivity.
Defined.

(** X3. One leaf that names no route, at any depth and hidden by the
    search or not, makes the whole [render] throw a TypeError; the world is
    left as it was. *)
Theorem X3_render_throws_on_bad_leaf (w : World) :
  forallb (indices_in_bounds (routes (this w))) (routeTree (this w)) = false →
  render w = (Throw TypeError, w).
Proof.
  intros Hb. unfold render, bind at 1. cbn [get_this]. unfold bind at 1.
  rewrite (mapM_throws renderTreeItem (routeTree (this w)) w); [done | |].
  - apply Forall_forall. intros; apply reads_this_renderTreeItem.
  - induction (routeTree (this w)) as [|t rest IH]; [done |].
    cbn [forallb] in Hb. apply andb_false_iff in Hb as [Hb|Hb].
    + apply Exists_cons_hd. by rewrite (renderTreeItem_out_of_bounds w t Hb).
    + apply Exists_cons_tl. by apply IH.
Qed.

Lemma X3_render_throws_on_bad_leaf_witness :
  let w := scenario [ITEM 0; GROUP "G" (Some [GROUP "H" (Some [ITEM 2])])] true "zzz" in
  render w = (Throw TypeError, w).
Proof.
  intros w. apply (X3_render_throws_on_bad_leaf w). reflexivity.
Defined.

End WholeRender.

(** ** What the search string can and cannot change *)

Section SearchString.
Import SideNav.

Lemma string_app_assoc (a b c : string) : (a +:+ b) +:+ c = a +:+ b +:+ c.
Proof.
  induction a as [|x a IH]; [reflexivity |].
  change (String x ((a +:+ b) +:+ c) = String x (a +:+ b +:+ c)). by rewrite IH.
Qed.

Lemma string_app_empty (a b : string) : a +:+ b = "" → a = "" ∧ b = "".
Proof.
  destruct a as [|x a]; intros H; [by split | ].
  change (String x (a +:+ b) = "") in H. discriminate H.
Qed.

Lemma Substring_trans (a b c : string) :
  Str.Substring a b → Str.Substring b c → Str.Substring a c.
Proof.
  intros (pre & post & ->) (pre' & post' & ->).
  exists (pre' +:+ pre), (post +:+ post'). by rewrite !string_app_assoc.
Qed.

Lemma Substring_nonempty (a b : string) : Str.Substring a b → a ≠ "" → b ≠ "".
Proof.
  intros (pre & post & ->) Ha Hb.
  apply string_app_empty in Hb as [_ Hb]. by apply string_app_empty in Hb as [? _].
Qed.

Lemma bind_reader {A B} (m : M A) (k : A → M B) (w : World) :
  reads_this m →
  bind m k w = match fst (m w) with
               | Ok a => k a w
               | Throw e => (Throw e, w)
               end.
Proof.
  intros Hm. destruct (Hm w) as [Hs _]. unfold bind.
  destruct (m w) as [r w']; simpl in *; subst. by destruct r.
Qed.

Lemma mapM_fst_ext {A B} (f : A → M B) (l : list A) (w1 w2 : World) :
  Forall (λ x, reads_this (f x)) l →
  Forall (λ x, fst (f x w1) = fst (f x w2)) l →
  fst (mapM f l w1) = fst (mapM f l w2).
Proof.
  induction 1 as [|x rest Hx Hrest IH]; intros Hsame; [done |].
  apply Forall_cons in Hsame as [Hhead Htail]. specialize (IH Htail).
  pose proof (reads_this_mapM f rest Hrest) as Hmap.
  cbn [mapM]. rewrite !(bind_reader (f x)) by done. rewrite Hhead.
  destruct (fst (f x w2)) as [y|e]; [| done].
  fold (mapM f rest). rewrite !(bind_reader (mapM f rest)) by done. rewrite IH.
  by destruct (fst (mapM f rest w2)).
Qed.

(** Two components with the same routes that hide the same routes render
    every item alike, a throw included. *)
Lemma renderTreeItem_same_filter (w1 w2 : World) (t : RouteTreeItem) :
  routes (this w1) = routes (this w2) →
  (∀ r, hidden_flag (this w1) r = hidden_flag (this w2) r) →
  fst (renderTreeItem t w1) = fst (renderTreeItem t w2).
Proof.
  intros Hroutes Hflag.
  induction t as [i | lbl | lbl cs IH] using RouteTreeItem_tree_ind.
  - destruct (array_get (routes (this w1)) i) as [r|] eqn:E.
    + rewrite (renderTreeItem_leaf w1 i r E).
      rewrite Hroutes in E. rewrite (renderTreeItem_leaf w2 i r E). cbn [fst].
      by rewrite Hflag.
    + rewrite (renderTreeItem_leaf_undefined w1 i E).
      rewrite Hroutes in E. by rewrite (renderTreeItem_leaf_undefined w2 i E).
  - reflexivity.
  - assert (Forall (λ c, reads_this (renderTreeItem c)) cs) as Hreads
      by (apply Forall_forall; intros; apply reads_this_renderTreeItem).
    pose proof (mapM_fst_ext renderTreeItem cs w1 w2 Hreads IH) as Hkids.
    pose proof (reads_this_mapM renderTreeItem cs Hreads) as Hmap.
    cbn [renderTreeItem].
    rewrite !(bind_reader (bind (mapM renderTreeItem cs) _))
      by (apply reads_this_bind; [done | intros; apply reads_this_ret]).
    rewrite !(bind_reader (mapM renderTreeItem cs)) by done. rewrite Hkids.
    by destruct (fst (mapM renderTreeItem cs w2)).
Qed.

Lemma hidden_flag_inactive (self : SideNavElement) (r : Route) :
  search_inactive self → hidden_flag self r = false.
Proof.
  unfold hidden_flag. intros [-> | ->]; [done |]. by rewrite andb_false_r.
Qed.

Lemma visible_leaves_inactive (self : SideNavElement) (t : RouteTreeItem) :
  search_inactive self →
  visible_leaves self t = all_leaves (routes self) t.
Proof.
  intros Hoff.
  induction t as [i | lbl | lbl cs IH] using RouteTreeItem_tree_ind;
    cbn [visible_leaves all_leaves].
  - destruct (array_get (routes self) i) as [r|]; [| done].
    by rewrite hidden_flag_inactive.
  - done.
  - f_equal. induction IH as [|c rest Hc _ IHrest]; [done |].
    cbn [map]. by rewrite Hc, IHrest.
Qed.

(** X4. While searchable is off or the search string is empty, nothing is
    filtered: an item renders a link for every leaf below it, depth first
    and in the order of the tree, each with the path and the label of its
    route. In particular a search string stored while searchable is off has
    no effect. *)
Theorem X4_inactive_search_filters_nothing (w : World) (t : RouteTreeItem) :
  indices_in_bounds (routes (this w)) t = true →
  search_inactive (this w) →
  ∃ item,
    renderTreeItem t w = (Ok item, w)
    ∧ links [child_of_template item] = map link_to (all_leaves (routes (this w)) t).
Proof.
  intros Hb Hoff. destruct (renderTreeItem_links w t Hb) as (item & Hitem & Hlinks).
  exists item. split; [done |]. by rewrite Hlinks, visible_leaves_inactive.
Qed.

Lemma X4_inactive_search_filters_nothing_witness :
  let t := GROUP "G" (Some [ITEM 1; GROUP "H" (Some [ITEM 0])]) in
  let w := scenario [t] false "zzz" in
  ∃ item,
    renderTreeItem t w = (Ok item, w)
    ∧ links [child_of_template item] = map link_to [beta; alpha].
Proof.
  intros t w. apply (X4_inactive_search_filters_nothing w t); [reflexivity | by left].
Defined.

Lemma hidden_flag_narrow (self : SideNavElement) (q q' : string) (r : Route) :
  Str.Substring q' q →
  hidden_flag (with_searchString self q') r = true →
  hidden_flag (with_searchString self q) r = true.
Proof.
  intros Hsub. rewrite !hidden_flag_spec. unfold hidden_by_search, label_contains.
  cbn [with_searchString searchable searchString].
  intros (Hs & Hq & Hn). split_and!; [done | by eapply Substring_nonempty |].
  intros (l & Hl & Hin). apply Hn. exists l. split; [done |].
  by eapply Substring_trans.
Qed.

Lemma sublist_concat_map {A B} (f g : A → list B) (l : list A) :
  Forall (λ x, f x `sublist_of` g x) l →
  concat (map f l) `sublist_of` concat (map g l).
Proof.
  induction 1 as [|x rest Hx _ IH]; [done |].
  cbn [map concat]. by apply sublist_app.
Qed.

Lemma sublist_map {A B} (f : A → B) (l k : list A) :
  l `sublist_of` k → map f l `sublist_of` map f k.
Proof. induction 1; simpl; by constructor. Qed.

Lemma visible_leaves_narrow (self : SideNavElement) (q q' : string) (t : RouteTreeItem) :
  Str.Substring q' q →
  visible_leaves (with_searchString self q) t
    `sublist_of` visible_leaves (with_searchString self q') t.
Proof.
  intros Hsub.
  induction t as [i | lbl | lbl cs IH] using RouteTreeItem_tree_ind;
    cbn [visible_leaves].
  - cbn [with_searchString routes].
    destruct (array_get (routes self) i) as [r|]; [| done].
    pose proof (hidden_flag_narrow self q q' r Hsub) as Hnarrow.
    destruct (hidden_flag (with_searchString self q') r).
    + by rewrite Hnarrow.
    + destruct (hidden_flag (with_searchString self q) r); [apply sublist_nil_l | done].
  - done.
  - by apply sublist_concat_map.
Qed.

(** X5. A longer search string only removes links: when [q'] occurs in
    [q], the links an item renders under [q] are a sublist of those it
    renders under [q'], in the same order. Typing more never brings a
    hidden leaf back. *)
Theorem X5_longer_search_only_hides (w : World) (q q' : string) (t : RouteTreeItem) :
  indices_in_bounds (routes (this w)) t = true →
  Str.Substring q' q →
  ∃ item item',
    fst (renderTreeItem t (with_this w (with_searchString (this w) q))) = Ok item
    ∧ fst (renderTreeItem t (with_this w (with_searchString (this w) q'))) = Ok item'
    ∧ links [child_of_template item] `sublist_of` links [child_of_template item'].
Proof.
  intros Hb Hsub.
  destruct (renderTreeItem_links (with_this w (with_searchString (this w) q)) t Hb)
    as (item & Hitem & Hlinks).
  destruct (renderTreeItem_links (with_this w (with_searchString (this w) q')) t Hb)
    as (item' & Hitem' & Hlinks').
  exists item, item'. rewrite Hitem, Hitem', Hlinks, Hlinks'.
  split_and!; [done | done |].
  apply sublist_map. cbn [with_this this]. by apply visible_leaves_narrow.
Qed.

Lemma X5_longer_search_only_hides_witness :
  let w := scenario [] true "" in
  let t := GROUP "G" (Some [ITEM 0; ITEM 1]) in
  ∃ item item',
    fst (renderTreeItem t (with_this w (with_searchString (this w) "eta"))) = Ok item
    ∧ fst (renderTreeItem t (with_this w (with_searchString (this w) "a"))) = Ok item'
    ∧ links [child_of_template item] `sublist_of` links [child_of_template item'].
Proof.
  intros w t. apply (X5_longer_search_only_hides w "eta" "a" t); [reflexivity |].
  by exists "et", "".
Defined.

End SearchString.

(** ** Handlers *)

Section Handlers.
Import SideNav.

Lemma search_field_changed_run (w : World) (event : InputEvent) :
  search_field_changed event w =
    (Ok tt,
     {| this := with_searchString (this w) (target_value event);
        elements := elements w;
        console := (console w ++ [search_log event])%list |}).
Proof. reflexivity. Qed.

Lemma last_default {A B} (f : A → B) (d d' : B) (x : A) (l : list A) :
  from_option f d (last (x :: l)) = from_option f d' (last (x :: l)).
Proof.
  revert x. induction l as [|y l IH]; intros x; [reflexivity |]. exact (IH y).
Qed.

Lemma searches_run (events : list InputEvent) (w : World) :
  let w' := world_after_all (map SearchFieldChanged events) w in
  searchString (this w')
  = from_option target_value (searchString (this w)) (last events)
  ∧ console w' = (console w ++ map search_log events)%list
  ∧ elements w' = elements w
  ∧ searchable (this w') = searchable (this w).
Proof.
  unfold world_after_all. revert w.
  induction events as [|ev rest IH]; intros w.
  - cbn. by rewrite app_nil_r.
  - cbn [map fold_left world_after]. rewrite search_field_changed_run. cbn [snd].
    destruct (IH {| this := with_searchString (this w) (target_value ev);
                    elements := elements w;
                    console := (console w ++ [search_log ev])%list |})
      as (Hq & Hc & He & Hs).
    cbn zeta in *. rewrite Hq, Hc, He, Hs. cbn [this elements console].
    split_and!.
    + destruct rest as [|ev' rest]; [reflexivity |].
      change (last (ev :: ev' :: rest)) with (last (ev' :: rest)). apply last_default.
    + rewrite <- List.app_assoc. reflexivity.
    + reflexivity.
    + reflexivity.
Qed.

(** X6. After any run of changes of the search field, the search string
    is the value of the last change, and the console has one line per
    change, in order, after what it had; the live elements, and with them
    the expansion state, and the searchable flag are untouched. *)
Theorem X6_last_search_wins (events : list InputEvent) (ev : InputEvent) (w : World) :
  last events = Some ev →
  let w' := world_after_all (map SearchFieldChanged events) w in
  searchString (this w') = target_value ev
  ∧ console w' = (console w ++ map search_log events)%list
  ∧ elements w' = elements w
  ∧ searchable (this w') = searchable (this w).
Proof.
  intros Hlast. destruct (searches_run events w) as (Hq & Hrest).
  cbn zeta in *. split; [| done]. by rewrite Hq, Hlast.
Qed.

Lemma X6_last_search_wins_witness :
  let events := [mkInputEvent "A"; mkInputEvent "Al"; mkInputEvent ""] in
  let w := scenario [ITEM 0] true "x" in
  let w' := world_after_all (map SearchFieldChanged events) w in
  searchString (this w') = ""
  ∧ console w' = (console w ++ map search_log events)%list
  ∧ elements w' = elements w
  ∧ searchable (this w') = searchable (this w).
Proof.
  intros events w. apply (X6_last_search_wins events (mkInputEvent "") w). reflexivity.
Defined.

(** X7. A toggle of a mounted element returns without an error and
    changes one attribute of one element: the component, the console and
    every other element are as before, and the element keeps its tag, its
    listeners, its children and every attribute but [aria-expanded]. *)
Theorem X7_toggle_touches_one_attribute (w : World) (r r' : ElementRef)
    (e : HTMLElement) (name : string) :
  elements w !! r = Some e →
  r' ≠ r →
  name ≠ "aria-expanded" →
  let w' := snd (treeGroupToggle (Some r) w) in
  fst (treeGroupToggle (Some r) w) = Ok tt
  ∧ this w' = this w
  ∧ console w' = console w
  ∧ elements w' !! r' = elements w !! r'
  ∧ ∃ e', elements w' !! r = Some e'
          ∧ tagName e' = tagName e
          ∧ listeners e' = listeners e
          ∧ childNodes e' = childNodes e
          ∧ getAttribute e' name = getAttribute e name.
Proof.
  intros Hr Hr' Hname w'. subst w'. rewrite (treeGroupToggle_run w r e Hr).
  cbn [fst snd this console elements]. split_and!; [done | done | done | |].
  - by rewrite lookup_insert_ne.
  - exists (flipped e). rewrite lookup_insert_eq. split_and!; try done.
    unfold flipped, getAttribute, setAttribute. cbn [attributes].
    by rewrite lookup_insert_ne.
Qed.

Lemma X7_toggle_touches_one_attribute_witness :
  let w := {| this := new_SideNavElement;
              elements := {[ 7 := group_li "G" []; 8 := group_li "H" [] ]};
              console := [] |} in
  let w' := snd (treeGroupToggle (Some 7) w) in
  fst (treeGroupToggle (Some 7) w) = Ok tt
  ∧ this w' = this w
  ∧ console w' = console w
  ∧ elements w' !! 8 = elements w !! 8
  ∧ ∃ e', elements w' !! 7 = Some e'
          ∧ tagName e' = tagName (group_li "G" [])
          ∧ listeners e' = listeners (group_li "G" [])
          ∧ childNodes e' = childNodes (group_li "G" [])
          ∧ getAttribute e' "class" = getAttribute (group_li "G" []) "class".
Proof.
  intros w.
  apply (X7_toggle_touches_one_attribute w 7 8 (group_li "G" []) "class");
    [reflexivity | discriminate | discriminate].
Defined.

(** X8. What a toggle makes of the flag of a mounted element: "false" when
    it was exactly "true", and "true" in every other case, a missing
    attribute and any other value included. *)
Theorem X8_toggle_reads_only_true (w : World) (r : ElementRef) (e : HTMLElement) :
  elements w !! r = Some e →
  expansion r (toggled r w)
  = Some (if bool_decide (ariaExpanded e = Some "true") then "false" else "true").
Proof.
  intros Hr. unfold toggled, expansion. rewrite (treeGroupToggle_run w r e Hr).
  cbn [snd elements]. rewrite lookup_insert_eq. cbn [mbind option_bind].
  rewrite ariaExpanded_flipped. do 2 f_equal.
  destruct (ariaExpanded e) as [v|]; cbn [strict_eq]; [| done].
  destruct (String.eqb_spec v "true") as [->|Hv]; [done |].
  rewrite bool_decide_eq_false_2; [done | congruence].
Qed.

Lemma X8_toggle_reads_only_true_witness :
  let e := mkElement "li" {[ "role" := "treeitem" ]} [] [] in
  let w := {| this := new_SideNavElement; elements := {[ 3 := e ]}; console := [] |} in
  expansion 3 (toggled 3 w)
  = Some (if bool_decide (ariaExpanded e = Some "true") then "false" else "true").
Proof.
  intros e w. apply (X8_toggle_reads_only_true w 3 e). reflexivity.
Defined.

(** X9. Three toggles are one toggle, whatever the state of the target
    is: for [null], and for an element of the world with any value of
    [aria-expanded] or none. After the first toggle the flag is "true" or
    "false", and from there two toggles undo each other. *)
Theorem X9_three_toggles_are_one (w : World) (el : option ElementRef) :
  (∀ r, el = Some r → is_Some (elements w !! r)) →
  let toggle := λ w, snd (treeGroupToggle el w) in
  toggle (toggle (toggle w)) = toggle w.
Proof.
  intros Hel toggle. subst toggle. destruct el as [r|]; [| done].
  destruct (Hel r eq_refl) as [e Hr].
  change (toggled r (toggled r (toggled r w)) = toggled r w).
  apply (toggled_twice (toggled r w) r (flipped e)).
  - unfold toggled. rewrite (treeGroupToggle_run w r e Hr).
    cbn [snd elements]. apply lookup_insert_eq.
  - rewrite ariaExpanded_flipped.
    destruct (strict_eq (ariaExpanded e) "true"); [by left | by right].
Qed.

Lemma X9_three_toggles_are_one_witness :
  let w := {| this := new_SideNavElement;
              elements := {[ 3 := mkElement "li" {[ "aria-expanded" := "maybe" ]} [] [] ]};
              console := [] |} in
  let toggle := λ w, snd (treeGroupToggle (Some 3) w) in
  toggle (toggle (toggle w)) = toggle w.
Proof.
  intros w. apply (X9_three_toggles_are_one w (Some 3)).
  intros r [= <-]. by eexists.
Defined.

(** Two toggles do not undo each other from every state: an element
    without the attribute ends with [aria-expanded="false"]. *)
Example two_toggles_of_a_bare_element :
  let w := {| this := new_SideNavElement;
              elements := {[ 3 := mkElement "li" ∅ [] [] ]};
              console := [] |} in
  expansion 3 w = None ∧ expansion 3 (toggled 3 (toggled 3 w)) = Some "false".
Proof. split; reflexivity. Qed.

(** X10. From the collapsed state of a mounted group, [n] toggles leave
    the world as it was when [n] is even and as after one toggle when [n] is
    odd: the group is expanded exactly after an odd number of toggles. *)
Theorem X10_toggle_parity (w : World) (r : ElementRef) (e : HTMLElement) (n : nat) :
  elements w !! r = Some e →
  ariaExpanded e = Some "false" →
  Nat.iter n (toggled r) w = (if Nat.even n then w else toggled r w)
  ∧ expansion r (Nat.iter n (toggled r) w)
    = Some (if Nat.even n then "false" else "true").
Proof.
  intros Hr He.
  assert (toggled r (toggled r w) = w) as Hinv by (eapply toggled_twice; eauto).
  assert (Nat.iter n (toggled r) w = if Nat.even n then w else toggled r w) as Hn.
  { induction n as [|n IH]; [done |].
    rewrite Nat.iter_succ, IH, Nat.even_succ, <- Nat.negb_even.
    by destruct (Nat.even n). }
  split; [done |]. rewrite Hn. destruct (Nat.even n).
  - unfold expansion. by rewrite Hr.
  - unfold toggled, expansion. rewrite (treeGroupToggle_run w r e Hr).
    cbn [snd elements]. rewrite lookup_insert_eq. cbn [mbind option_bind].
    by rewrite ariaExpanded_flipped, He.
Qed.

Lemma X10_toggle_parity_witness :
  let e := group_li "G" [] in
  let w := {| this := new_SideNavElement; elements := {[ 7 := e ]}; console := [] |} in
  Nat.iter 5 (toggled 7) w = (if Nat.even 5 then w else toggled 7 w)
  ∧ expansion 7 (Nat.iter 5 (toggled 7) w)
    = Some (if Nat.even 5 then "false" else "true").
Proof.
  intros e w. apply (X10_toggle_parity w 7 e 5); reflexivity.
Defined.

(** X11. No handler throws: the search handler, the keydown and click
    handlers of a group label and the toggle return normally for every
    event and every world, a [null] parent element included. *)
Theorem X11_handlers_never_throw (w : World) :
  (∀ ev, fst (onSearch ev w) = Ok tt)
  ∧ (∀ ev, fst (search_field_changed ev w) = Ok tt)
  ∧ (∀ el, fst (treeGroupToggle el w) = Ok tt)
  ∧ (∀ ev, fst (onTreeGroupKeyDown ev w) = Ok tt)
  ∧ (∀ ev, fst (onTreeGroupClick ev w) = Ok tt).
Proof.
  assert (∀ el, fst (treeGroupToggle el w) = Ok tt) as Htoggle.
  { intros [r|]; [| done].
    unfold treeGroupToggle, bind, get_element. by destruct (strict_eq _ _). }
  split_and!; [done | done | done | |].
  - intros ev. unfold onTreeGroupKeyDown. by destruct (String.eqb _ _).
  - intros ev. apply Htoggle.
Qed.

End Handlers.

(** ** The markup of the tree *)

Section Markup.
Import SideNav.

Lemma mapM_inv {A B} (f : A → M B) (l : list A) (w : World) (ys : list B) :
  Forall (λ x, reads_this (f x)) l →
  fst (mapM f l w) = Ok ys →
  Forall2 (λ x y, fst (f x w) = Ok y) l ys.
Proof.
  intros Hreads. revert ys.
  induction Hreads as [|x rest Hx Hrest IH]; intros ys; cbn [mapM].
  - intros [= <-]. constructor.
  - rewrite (bind_reader (f x)) by done.
    destruct (fst (f x w)) as [y|e] eqn:Hy; [| done].
    fold (mapM f rest). rewrite (bind_reader (mapM f rest)) by by apply reads_this_mapM.
    destruct (fst (mapM f rest w)) as [ys'|e]; [| done].
    intros [= <-]. constructor; [done | by apply IH].
Qed.

Lemma descendants_item_li (href : string) (text : option string) :
  descendants (item_li href text)
  = [item_li href text; mkElement "a" {[ "href" := href ]} [] [child_of_string text]].
Proof.
  unfold item_li. rewrite descendants_unfold, nodes_descendants_cons.
  cbn [node_descendants]. rewrite descendants_unfold. by destruct text.
Qed.

Lemma descendants_group_li (lbl : string) (kids : list Node) :
  descendants (group_li lbl kids)
  = ([ group_li lbl kids;
       mkElement "span" {[ "class" := "group-label"; "tabindex" := "0" ]}
         [("click", OnTreeGroupClick); ("keydown", OnTreeGroupKeyDown)] [NText lbl];
       mkElement "ul" {[ "role" := "group" ]} [] kids ]
     ++ nodes_descendants kids)%list.
Proof.
  unfold group_li. rewrite descendants_unfold, !nodes_descendants_cons.
  cbn [node_descendants]. rewrite !descendants_unfold.
  cbn [nodes_descendants map concat node_descendants app]. by rewrite app_nil_r.
Qed.

Ltac markup :=
  unfold tree_markup, ariaExpanded, getAttribute; cbn [tagName attributes];
  split_and!; intros Hm; try discriminate Hm; try (vm_compute in Hm; discriminate Hm);
  try split; try reflexivity.

Lemma tree_markup_item_li (href : string) (text : option string) :
  Forall tree_markup (descendants (item_li href text)).
Proof.
  rewrite descendants_item_li. unfold item_li.
  repeat apply List.Forall_cons; try apply List.Forall_nil; markup.
Qed.

Lemma tree_markup_group_li (lbl : string) (kids : list Node) :
  Forall tree_markup (nodes_descendants kids) →
  Forall tree_markup (descendants (group_li lbl kids)).
Proof.
  intros Hkids. rewrite descendants_group_li. apply Forall_app. split; [| done].
  unfold group_li.
  repeat apply List.Forall_cons; try apply List.Forall_nil; markup.
Qed.

(** X13. Every element of a rendered item keeps the markup of a tree:
    each list item has the role "treeitem", each list below one the role
    "group", and whatever carries the class "expandable" is a list item
    with [aria-expanded="false"]. A render never writes an expanded group. *)
Theorem X13_rendered_markup (w : World) (t : RouteTreeItem) (e : HTMLElement) :
  fst (renderTreeItem t w) = Ok (Some e) →
  Forall tree_markup (descendants e).
Proof.
  revert e.
  induction t as [i | lbl | lbl cs IH] using RouteTreeItem_tree_ind; intros e.
  - destruct (array_get (routes (this w)) i) as [r|] eqn:Hr.
    + rewrite (renderTreeItem_leaf w i r Hr). cbn [fst].
      destruct (hidden_flag (this w) r); [done |].
      intros [= <-]. apply tree_markup_item_li.
    + by rewrite (renderTreeItem_leaf_undefined w i Hr).
  - intros [= <-]. apply tree_markup_group_li. constructor.
  - assert (Forall (λ c, reads_this (renderTreeItem c)) cs) as Hreads
      by (apply Forall_forall; intros; apply reads_this_renderTreeItem).
    cbn [renderTreeItem].
    rewrite (bind_reader (bind (mapM renderTreeItem cs) _))
      by (apply reads_this_bind; [by apply reads_this_mapM | intros; apply reads_this_ret]).
    rewrite (bind_reader (mapM renderTreeItem cs)) by by apply reads_this_mapM.
    destruct (fst (mapM renderTreeItem cs w)) as [items|err] eqn:Hitems; [| done].
    cbn [ret fst]. intros [= <-]. apply tree_markup_group_li.
    pose proof (mapM_inv renderTreeItem cs w items Hreads Hitems) as Hall.
    clear Hitems Hreads. unfold nodes_descendants.
    induction Hall as [|c item cs items Hc _ IHall]; [constructor |].
    apply Forall_cons in IH as [IHc IHrest].
    cbn [map concat]. apply Forall_app. split; [| by apply IHall].
    destruct item as [e'|]; [by apply IHc | constructor].
Qed.

Lemma X13_rendered_markup_witness :
  let w := scenario [] true "Be" in
  ∃ e, fst (renderTreeItem (GROUP "G" (Some [ITEM 0; GROUP "H" None; ITEM 1])) w)
       = Ok (Some e)
       ∧ Forall tree_markup (descendants e).
Proof.
  intros w. eexists. split; [reflexivity |].
  apply (X13_rendered_markup w (GROUP "G" (Some [ITEM 0; GROUP "H" None; ITEM 1]))).
  reflexivity.
Defined.

End Markup.

(** ** Groups are never filtered *)

Section GroupsKept.
Import SideNav.

Lemma rendered_groups_app (ns ms : list Node) :
  rendered_groups (ns ++ ms) = (rendered_groups ns ++ rendered_groups ms)%list.
Proof.
  unfold rendered_groups, nodes_descendants.
  by rewrite map_app, concat_app, List.filter_app, map_app.
Qed.

Lemma rendered_groups_cons (n : Node) (ns : list Node) :
  rendered_groups (n :: ns) = (rendered_groups [n] ++ rendered_groups ns)%list.
Proof. apply (rendered_groups_app [n] ns). Qed.

Lemma rendered_groups_element (tag : string) (attrs : gmap string string)
    (ls : list (string * Listener)) (kids : list Node) :
  rendered_groups [NElem (mkElement tag attrs ls kids)]
  = ((if strict_eq (attrs !! "class") "expandable"
      then [(label_content (mkElement tag attrs ls kids), attrs !! "aria-expanded")]
      else [])
     ++ rendered_groups kids)%list.
Proof.
  unfold rendered_groups, nodes_descendants at 1. cbn [map concat node_descendants].
  rewrite app_nil_r, descendants_unfold. cbn [List.filter].
  unfold is_expandable at 1, getAttribute at 1. cbn [attributes].
  by destruct (strict_eq (attrs !! "class") "expandable").
Qed.

Lemma rendered_groups_item_li (href : string) (text : option string) :
  rendered_groups [NElem (item_li href text)] = [].
Proof.
  unfold item_li. rewrite !rendered_groups_element. by destruct text.
Qed.

Lemma rendered_groups_group_li (lbl : string) (kids : list Node) :
  rendered_groups [NElem (group_li lbl kids)]
  = collapsed_group lbl :: rendered_groups kids.
Proof.
  unfold group_li. rewrite rendered_groups_element, rendered_groups_cons.
  rewrite !rendered_groups_element. reflexivity.
Qed.

Lemma rendered_groups_items (cs : list RouteTreeItem) (items : list (option HTMLElement)) :
  Forall2 (λ c item, rendered_groups [child_of_template item]
                     = map collapsed_group (group_labels c)) cs items →
  rendered_groups (map child_of_template items)
  = map collapsed_group (concat (map group_labels cs)).
Proof.
  induction 1 as [|c item cs items Hc _ IH]; [done |].
  cbn [map concat]. by rewrite rendered_groups_cons, map_app, Hc, IH.
Qed.

Lemma renderTreeItem_groups (w : World) (t : RouteTreeItem) :
  indices_in_bounds (routes (this w)) t = true →
  ∃ item, renderTreeItem t w = (Ok item, w)
          ∧ rendered_groups [child_of_template item]
            = map collapsed_group (group_labels t).
Proof.
  induction t as [i | lbl | lbl cs IH] using RouteTreeItem_tree_ind;
    cbn [indices_in_bounds group_labels]; intros Hb.
  - apply bool_decide_eq_true in Hb as [r Hr].
    rewrite (renderTreeItem_leaf w i r Hr). eexists; split; [done |].
    destruct (hidden_flag (this w) r); [done |]. apply rendered_groups_item_li.
  - eexists; split; [reflexivity |]. apply rendered_groups_group_li.
  - rewrite forallb_forall in Hb.
    destruct (mapM_Forall2 renderTreeItem cs w
                (λ c item, rendered_groups [child_of_template item]
                           = map collapsed_group (group_labels c)))
      as (items & Hitems & Hall).
    { rewrite Forall_forall in IH |- *. intros c Hc.
      apply IH; [done |]. by apply Hb, list_elem_of_In. }
    exists (Some (group_li lbl (map child_of_template items))). split.
    + cbn [renderTreeItem]. unfold bind. by rewrite Hitems.
    + cbn [child_of_template map]. rewrite rendered_groups_group_li.
      f_equal. by apply rendered_groups_items.
Qed.

(** C3. A group is always rendered, whatever searchable and searchString
    are, also when the search hides every leaf below it: as an expandable,
    collapsed list item with its label, the click and keydown listeners of
    the toggle and its child container. The container holds the render of
    every child, in order, and every group below, at any depth, is in the
    output with its label, collapsed: groups are not filtered, hidden or
    collapsed by the search. The leaves resolve, as the data model requires. *)
Theorem C3_group_always_rendered (w : World) (lbl : string)
    (cs : option (list RouteTreeItem)) :
  indices_in_bounds (routes (this w)) (GROUP lbl cs) = true →
  ∃ e kids,
    renderTreeItem (GROUP lbl cs) w = (Ok (Some e), w)
    ∧ e = mkElement "li"
            {[ "role" := "treeitem"; "class" := "expandable"; "aria-expanded" := "false" ]}
            []
            [ NElem (mkElement "span"
                       {[ "class" := "group-label"; "tabindex" := "0" ]}
                       [("click", OnTreeGroupClick); ("keydown", OnTreeGroupKeyDown)]
                       [NText lbl]);
              NElem (mkElement "ul" {[ "role" := "group" ]} [] kids) ]
    ∧ match cs with
      | Some children =>
          Forall2 (λ c kid, ∃ item, renderTreeItem c w = (Ok item, w)
                                    ∧ kid = match item with
                                            | Some x => NElem x
                                            | None => NNothing
                                            end)
            children kids
      | None => kids = [NNothing]
      end
    ∧ rendered_groups [NElem e] = map collapsed_group (group_labels (GROUP lbl cs)).
Proof.
  intros Hb. destruct cs as [cs|].
  - cbn [indices_in_bounds] in Hb. rewrite forallb_forall in Hb.
    destruct (mapM_Forall2 renderTreeItem cs w
                (λ c item, renderTreeItem c w = (Ok item, w)
                           ∧ rendered_groups [child_of_template item]
                             = map collapsed_group (group_labels c)))
      as (items & Hitems & Hall).
    { apply Forall_forall. intros c Hc.
      destruct (renderTreeItem_groups w c) as (item & Hitem & Hgroups); [| by eauto].
      by apply Hb, list_elem_of_In. }
    exists (group_li lbl (map child_of_template items)), (map child_of_template items).
    split_and!.
    + cbn [renderTreeItem]. unfold bind. by rewrite Hitems.
    + reflexivity.
    + clear Hitems Hb. induction Hall as [|c item cs items [Hc _] _ IH]; constructor.
      * by exists item.
      * exact IH.
    + rewrite rendered_groups_group_li. cbn [group_labels map]. f_equal.
      apply rendered_groups_items.
      eapply Forall2_impl; [exact Hall |]. by intros c item [_ ?].
  - exists (group_li lbl [NNothing]), [NNothing].
    split_and!; [reflexivity | reflexivity | reflexivity |].
    apply rendered_groups_group_li.
Qed.

Lemma C3_group_always_rendered_witness :
  let children := [ITEM 0; GROUP "H" (Some [ITEM 1])] in
  let w := scenario [GROUP "G" (Some children)] true "zzz" in
  ∃ e kids,
    renderTreeItem (GROUP "G" (Some children)) w = (Ok (Some e), w)
    ∧ e = mkElement "li"
            {[ "role" := "treeitem"; "class" := "expandable"; "aria-expanded" := "false" ]}
            []
            [ NElem (mkElement "span"
                       {[ "class" := "group-label"; "tabindex" := "0" ]}
                       [("click", OnTreeGroupClick); ("keydown", OnTreeGroupKeyDown)]
                       [NText "G"]);
              NElem (mkElement "ul" {[ "role" := "group" ]} [] kids) ]
    ∧ Forall2 (λ c kid, ∃ item, renderTreeItem c w = (Ok item, w)
                                ∧ kid = match item with
                                        | Some x => NElem x
                                        | None => NNothing
                                        end)
        children kids
    ∧ rendered_groups [NElem e] = [collapsed_group "G"; collapsed_group "H"].
Proof.
  intros children w.
  apply (C3_group_always_rendered w "G" (Some children)). reflexivity.
Defined.

End GroupsKept.
